(** * Verification of the trans-genetic-effect workflow (usecase 7)

    Two parts:
    - [Engine]: the batch hypothesis-testing engine [run_batch_ttest]
      ([cptac.utils.wrap_ttest]); its code is not among the sources, so it is
      modelled from the spec (section 4.1).
    - [Notebook]: the notebook cells that binarize the mutation status and
      call the engine, translated from the notebook source. *)

From Stdlib Require Import String List Bool Arith Lia ZArith QArith Qreduction.
From Stdlib Require Import Sorting.Sorted Sorting.Permutation.
Import ListNotations.
Open Scope string_scope.
Open Scope list_scope.

Module Engine.

Local Open Scope Q_scope.

(** ** Data model (spec section 3 and 9) *)

(** A table: label columns hold optional categorical values, measurement
    columns optional rational values; [None] is the missing-value marker.
    Columns are found by name, first match. *)
Record table := mk_table {
  tbl_labels : list (string * list (option string));
  tbl_values : list (string * list (option Q))
}.

Inductive batch_error :=
| InvalidGroupingError (distinct_labels : list string)
| ColumnNotFoundError (name : string)
| EmptyInputError.

Inductive outcome :=
| EmptyResult
| ResultTable (rows : list (string * Q)).

Definition rows_of (o : outcome) : list (string * Q) :=
  match o with EmptyResult => [] | ResultTable rs => rs end.

Fixpoint lookup {A} (k : string) (l : list (string * A)) : option A :=
  match l with
  | [] => None
  | (k', v) :: l' => if String.eqb k k' then Some v else lookup k l'
  end.

(** Distinct values in order of first appearance (pandas [unique]). *)
Fixpoint uniq_acc (seen : list string) (l : list string) : list string :=
  match l with
  | [] => []
  | x :: l' =>
      if existsb (String.eqb x) seen then uniq_acc seen l'
      else x :: uniq_acc (x :: seen) l'
  end.

Definition uniq (l : list string) : list string := uniq_acc [] l.

Fixpoint drop_missing {A} (l : list (option A)) : list A :=
  match l with
  | [] => []
  | None :: l' => drop_missing l'
  | Some x :: l' => x :: drop_missing l'
  end.

(** Values of one group for one column: rows whose label is [lab] and whose
    cell is not missing (missingness is per cell). *)
Fixpoint group_values (lab : string) (labels : list (option string))
    (vals : list (option Q)) : list Q :=
  match labels, vals with
  | Some l :: ls, Some v :: vs =>
      if String.eqb l lab then v :: group_values lab ls vs
      else group_values lab ls vs
  | _ :: ls, _ :: vs => group_values lab ls vs
  | _, _ => []
  end.

(** ** Two-sample t-test *)

Definition qlen {A} (l : list A) : Q := inject_Z (Z.of_nat (List.length l)).

Definition qsum (l : list Q) : Q := fold_right Qplus 0 l.

Definition mean (xs : list Q) : Q := qsum xs / qlen xs.

(** Sample variance, denominator n - 1. *)
Definition variance (xs : list Q) : Q :=
  let m := mean xs in
  qsum (map (fun x => (x - m) * (x - m)) xs) / (qlen xs - 1).

(** Modelled from the spec: the two-sided p-value of a t-statistic.  It
    is [P(|T_df| >= |t|)], a function of [t^2] and the degrees of freedom
    [df] only; the t-distribution's tail is not computable over [Q], so it
    is a parameter of the engine, applied to reduced (canonical)
    rationals. *)
Class TwoSidedTail := two_sided_tail : Q -> Q -> Q.

Section TTest.

Context {tail : TwoSidedTail}.

(** Squared standard error and degrees of freedom: Welch-Satterthwaite
    when [equal_var] is false, pooled variance when it is true. *)
Definition se2_df (equal_var : bool) (xs ys : list Q) : Q * Q :=
  let na := qlen xs in let nb := qlen ys in
  let va := variance xs in let vb := variance ys in
  if equal_var then
    let sp2 := ((na - 1) * va + (nb - 1) * vb) / (na + nb - 2) in
    (sp2 * (1 / na + 1 / nb), na + nb - 2)
  else
    let a := va / na in let b := vb / nb in
    ((a + b), (a + b) * (a + b) / (a * a / (na - 1) + b * b / (nb - 1))).

(** Modelled from the spec (steps 2b and 2c, Scenario B): a column with
    fewer than 2 values in a group, or with no spread at all (zero
    standard error), is untestable and gives no p-value. *)
Definition ttest (equal_var : bool) (xs ys : list Q) : option Q :=
  if Nat.ltb (List.length xs) 2 || Nat.ltb (List.length ys) 2 then None
  else
    let (se2, df) := se2_df equal_var xs ys in
    if Qeq_bool se2 0 then None
    else
      let d := mean xs - mean ys in
      Some (two_sided_tail (Qred (d * d / se2)) (Qred df)).

(** ** The batch engine (spec section 4.1, steps 1 to 6) *)

Definition bind {A B} (m : batch_error + A) (f : A -> batch_error + B)
    : batch_error + B :=
  match m with inl e => inl e | inr a => f a end.

Local Notation "'let*' x := m 'in' k" := (bind m (fun x => k))
  (at level 200, x name, m at level 100, k at level 200).

(** Step 2: look up every requested column, in order, and test it; an
    absent column fails with [ColumnNotFoundError] naming it. *)
Fixpoint test_columns (equal_var : bool) (labels : list (option string))
    (la lb : string) (vals : list (string * list (option Q)))
    (value_columns : list string) : batch_error + list (string * option Q) :=
  match value_columns with
  | [] => inr []
  | c :: cs =>
      match lookup c vals with
      | None => inl (ColumnNotFoundError c)
      | Some col =>
          let* rest := test_columns equal_var labels la lb vals cs in
          inr ((c, ttest equal_var (group_values la labels col)
                                   (group_values lb labels col)) :: rest)
      end
  end.

Definition count_tested (tested : list (string * option Q)) : nat :=
  List.length (filter (fun e : string * option Q => if snd e then true else false) tested).

(** Steps 3 and 4: Bonferroni correction by the number of columns actually
    tested, keeping the columns whose corrected p-value is at most
    [alpha]. *)
Fixpoint retain (alpha : Q) (n : nat) (tested : list (string * option Q))
    : list (string * Q) :=
  match tested with
  | [] => []
  | (c, Some p) :: rest =>
      let q := p * inject_Z (Z.of_nat n) in
      if Qle_bool q alpha then (c, q) :: retain alpha n rest
      else retain alpha n rest
  | (c, None) :: rest => retain alpha n rest
  end.

(** Step 5: stable sort ascending by corrected p-value (insertion sort;
    an element goes before the first element it is not above). *)
Fixpoint insert_by (x : string * Q) (l : list (string * Q)) : list (string * Q) :=
  match l with
  | [] => [x]
  | y :: l' => if Qle_bool (snd x) (snd y) then x :: y :: l' else y :: insert_by x l'
  end.

Fixpoint sort_by (l : list (string * Q)) : list (string * Q) :=
  match l with
  | [] => []
  | x :: l' => insert_by x (sort_by l')
  end.

(** Steps 2 to 6 once the two groups [la] (first) and [lb] are known. *)
Definition run_groups (labels : list (option string)) (la lb : string)
    (vals : list (string * list (option Q))) (value_columns : list string)
    (alpha : Q) (equal_var : bool) : batch_error + outcome :=
  let* tested := test_columns equal_var labels la lb vals value_columns in
  match sort_by (retain alpha (count_tested tested) tested) with
  | [] => inr EmptyResult
  | rs => inr (ResultTable rs)
  end.

(** [run_batch_ttest(table, group_column, value_columns, alpha, equal_var)].
    The grouping column is looked up and validated first (step 1), then
    [value_columns] must be non-empty, then each value column is looked up
    in order (step 2).  A table with no labelled row has no distinct label,
    so it already fails with [InvalidGroupingError]. *)
Definition run_batch_ttest (t : table) (group_column : string)
    (value_columns : list string) (alpha : Q) (equal_var : bool)
    : batch_error + outcome :=
  match lookup group_column (tbl_labels t) with
  | None => inl (ColumnNotFoundError group_column)
  | Some labels =>
      match uniq (drop_missing labels) with
      | [la; lb] =>
          match value_columns with
          | [] => inl EmptyInputError
          | _ => run_groups labels la lb (tbl_values t) value_columns alpha equal_var
          end
      | ds => inl (InvalidGroupingError ds)
      end
  end.

Definition default_alpha : Q := 1 # 20.

(** The call with its default arguments [alpha = 0.05], [equal_var = False]. *)
Definition run_batch_ttest_default (t : table) (group_column : string)
    (value_columns : list string) : batch_error + outcome :=
  run_batch_ttest t group_column value_columns default_alpha false.

(** The raw p-value of column [c] under the table's grouping ([None] when
    the grouping is invalid, the column absent or untestable). *)
Definition raw_pvalue (t : table) (group_column : string) (equal_var : bool)
    (c : string) : option Q :=
  match lookup group_column (tbl_labels t) with
  | None => None
  | Some labels =>
      match uniq (drop_missing labels) with
      | [la; lb] =>
          match lookup c (tbl_values t) with
          | None => None
          | Some col => ttest equal_var (group_values la labels col)
                                        (group_values lb labels col)
          end
      | _ => None
      end
  end.

(** The number of requested columns actually tested. *)
Definition n_tested (t : table) (group_column : string) (equal_var : bool)
    (value_columns : list string) : nat :=
  List.length (filter (fun c => if raw_pvalue t group_column equal_var c then true else false)
                      value_columns).

(** The retained, ranked rows of a call, computed column by column from
    [raw_pvalue] and [n_tested]. *)
Definition ranked (t : table) (group_column : string) (value_columns : list string)
    (alpha : Q) (equal_var : bool) : list (string * Q) :=
  sort_by (retain alpha (n_tested t group_column equal_var value_columns)
                  (map (fun c => (c, raw_pvalue t group_column equal_var c)) value_columns)).


(** Ranking order on result rows, by corrected p-value. *)
Definition le_p (x y : string * Q) : Prop := snd x <= snd y.

(** [x] occurs before [y] in [l]. *)
Definition before {A} (x y : A) (l : list A) : Prop :=
  exists l1 l2 l3, l = l1 ++ x :: l2 ++ y :: l3.

End TTest.
End Engine.

(** * The notebook cells *)

Module Notebook.
Import Engine.

(** A cell of the joined pandas frame; [Missing] is NaN. *)
Inductive cell :=
| Missing
| Str (s : string)
| Num (q : Q).

(** A row maps column names to cells; a frame is a list of rows keyed by
    their index label (the sample identifier), in row order.  A column
    absent from a row reads as NaN. *)
Definition row := list (string * cell).
Definition frame := list (string * row).

(** [row[col]]: [None] is a [KeyError]. *)
Definition row_get (r : row) (col : string) : option cell := lookup col r.

Fixpoint row_set (r : row) (col : string) (v : cell) : row :=
  match r with
  | [] => [(col, v)]
  | (k, x) :: r' => if String.eqb col k then (k, v) :: r' else (k, x) :: row_set r' col v
  end.

(** [df.at[ind, col] = v]: every row labelled [ind] gets [v] in [col]. *)
Definition frame_at_set (df : frame) (ind col : string) (v : cell) : frame :=
  map (fun ir => if String.eqb (fst ir) ind then (fst ir, row_set (snd ir) col v) else ir) df.

(** [x != s] for a string [s]: NaN and numbers are never equal to it. *)
Definition cell_ne_str (c : cell) (s : string) : bool :=
  match c with
  | Str s' => negb (String.eqb s' s)
  | _ => true
  end.

Definition status_label (v : cell) : string :=
  if cell_ne_str v "Wildtype_Tumor" then "Mutated" else "Wildtype".

(** The loop of cells 18 and 32:
<<
for ind, row in protdf.iterrows():
    if row[gene+"_Mutation_Status"] != 'Wildtype_Tumor':
        protdf.at[ind,'Gene Mutation Status'] = 'Mutated'
    else:
        protdf.at[ind,'Gene Mutation Status'] = 'Wildtype'
>>
    [iterrows] walks a snapshot of the rows; [None] is a [KeyError]. *)
Fixpoint binarize_loop (status_col group_col : string) (snap : frame) (df : frame)
    : option frame :=
  match snap with
  | [] => Some df
  | (ind, r) :: rest =>
      match row_get r status_col with
      | None => None
      | Some v =>
          binarize_loop status_col group_col rest
            (frame_at_set df ind group_col (Str (status_label v)))
      end
  end.

Definition binarize (gene group_col : string) (df : frame) : option frame :=
  binarize_loop (String.append gene "_Mutation_Status") group_col df df.

(** The grouping column as the engine reads it. *)
Definition group_labels (group_col : string) (df : frame) : list (option string) :=
  map (fun ir => match row_get (snd ir) group_col with
                 | Some (Str s) => Some s
                 | _ => None
                 end) df.

(** The frame's columns, in order of first appearance across the rows
    (a column added by [.at] comes last, as pandas appends it). *)
Definition frame_columns (df : frame) : list string :=
  uniq (concat (map (fun ir => map fst (snd ir)) df)).

(** Cells 14 and 32: [protdf.loc[protdf['Sample_Status'] == 'Tumor']].
    A frame without the column raises [KeyError]; NaN and numbers are not
    equal to ['Tumor']. *)
Definition tumor_only (df : frame) : option frame :=
  if existsb (String.eqb "Sample_Status") (frame_columns df) then
    Some (filter (fun ir => match row_get (snd ir) "Sample_Status" with
                            | Some (Str s) => String.eqb s "Tumor"
                            | _ => false
                            end) df)
  else None.

Definition row_del (r : row) (col : string) : row :=
  filter (fun kv => negb (String.eqb (fst kv) col)) r.

(** Cell 19: [protdf.drop(col, axis=1)]; [KeyError] when the frame has no
    such column. *)
Definition drop_col (df : frame) (col : string) : option frame :=
  if existsb (String.eqb col) (frame_columns df) then
    Some (map (fun ir => (fst ir, row_del (snd ir) col)) df)
  else None.

(** Python's [list.remove(x)]: drop the first occurrence, [ValueError]
    when there is none. *)
Fixpoint list_remove (x : string) (l : list string) : option (list string) :=
  match l with
  | [] => None
  | y :: l' => if String.eqb y x then Some l' else option_map (cons y) (list_remove x l')
  end.

(** Cell 22: [col_list = list(protdf.columns); col_list.remove(group_col)]. *)
Definition col_list_of (group_col : string) (df : frame) : option (list string) :=
  list_remove group_col (frame_columns df).

Local Notation "'let?' x := m 'in' k" :=
  (match m with Some x => k | None => None end)
  (at level 200, x name, m at level 100, k at level 200).

(** Cells 14, 18, 19 and 22 in sequence (cell 32 runs the same steps): the
    frame and the column list handed to [wrap_ttest]. *)
Definition prepare (gene group_col : string) (df : frame) : option (frame * list string) :=
  let? df1 := tumor_only df in
  let? df2 := binarize gene group_col df1 in
  let? df3 := drop_col df2 (String.append gene "_Mutation") in
  let? df4 := drop_col df3 (String.append gene "_Location") in
  let? df5 := drop_col df4 (String.append gene "_Mutation_Status") in
  let? df6 := drop_col df5 "Sample_Status" in
  let? cols := col_list_of group_col df6 in
  Some (df6, cols).

(** How a row before a step corresponds to the row after it. *)
Definition binarize_rel (status_col group_col : string) (ir ir' : string * row) : Prop :=
  fst ir' = fst ir /\
  (exists v, row_get (snd ir) status_col = Some v /\
             row_get (snd ir') group_col = Some (Str (status_label v))) /\
  (forall k, k <> group_col -> row_get (snd ir') k = row_get (snd ir) k).

Definition drop_rel (col : string) (ir ir' : string * row) : Prop :=
  fst ir' = fst ir /\ row_get (snd ir') col = None /\
  (forall k, k <> col -> row_get (snd ir') k = row_get (snd ir) k).

End Notebook.

(** * Proofs about the engine *)

Module EngineFacts.
Import Engine.
Local Open Scope Q_scope.

Section Facts.
Context {tail : TwoSidedTail}.

(** ** Properties of the engine *)

Lemma test_columns_inr equal_var labels la lb vals vcs tested :
  test_columns equal_var labels la lb vals vcs = inr tested ->
  (forall c, In c vcs -> lookup c vals <> None) /\
  tested = map (fun c => (c, match lookup c vals with
                              | None => None
                              | Some col => ttest equal_var (group_values la labels col)
                                                            (group_values lb labels col)
                              end)) vcs.
Proof.
  revert tested; induction vcs as [|c cs IH]; simpl; intros tested H.
  - inversion H; subst; split; [tauto | reflexivity].
  - destruct (lookup c vals) as [col|] eqn:Hc; [|discriminate].
    unfold bind in H.
    destruct (test_columns equal_var labels la lb vals cs) as [e|rest] eqn:Hr;
      [discriminate|].
    inversion H; subst; clear H.
    destruct (IH rest eq_refl) as [Hin ->].
    split; [|reflexivity].
    intros c' [<-|Hc']; [congruence|auto].
Qed.

Lemma test_columns_all_present equal_var labels la lb vals vcs :
  (forall c, In c vcs -> lookup c vals <> None) ->
  exists tested, test_columns equal_var labels la lb vals vcs = inr tested.
Proof.
  induction vcs as [|c cs IH]; simpl; intros Hall; [eauto|].
  destruct (lookup c vals) as [col|] eqn:Hc; [|exfalso; apply (Hall c); auto].
  destruct IH as [rest Hr]; [intros; apply Hall; auto|].
  rewrite Hr; simpl; eauto.
Qed.

Lemma test_columns_inl equal_var labels la lb vals vcs e :
  test_columns equal_var labels la lb vals vcs = inl e ->
  exists pre c post, vcs = pre ++ c :: post /\ e = ColumnNotFoundError c /\
    lookup c vals = None /\ (forall c', In c' pre -> lookup c' vals <> None).
Proof.
  induction vcs as [|c cs IH]; simpl; intros H; [discriminate|].
  destruct (lookup c vals) as [col|] eqn:Hc.
  - unfold bind in H.
    destruct (test_columns equal_var labels la lb vals cs) as [e'|rest] eqn:Hr;
      [|discriminate].
    inversion H; subst.
    destruct (IH eq_refl) as (pre & c' & post & -> & -> & Hc' & Hpre).
    exists (c :: pre), c', post.
    split; [reflexivity|]. split; [reflexivity|]. split; [assumption|].
    intros c'' [<-|Hin]; [congruence|auto].
  - inversion H; subst. exists [], c, cs.
    split; [reflexivity|]. split; [reflexivity|]. split; [assumption|].
    intros c' [].
Qed.

(** A successful call runs [ranked] on valid inputs. *)
Lemma run_inr_inv t g vcs alpha equal_var o :
  run_batch_ttest t g vcs alpha equal_var = inr o ->
  (exists labels la lb, lookup g (tbl_labels t) = Some labels /\
     uniq (drop_missing labels) = [la; lb]) /\
  vcs <> [] /\ (forall c, In c vcs -> lookup c (tbl_values t) <> None) /\
  o = match ranked t g vcs alpha equal_var with
      | [] => EmptyResult
      | rs => ResultTable rs
      end.
Proof.
  unfold run_batch_ttest, ranked.
  destruct (lookup g (tbl_labels t)) as [labels|] eqn:Hg; [|discriminate].
  destruct (uniq (drop_missing labels)) as [|la [|lb [|x ds]]] eqn:Hu;
    try discriminate.
  destruct vcs as [|c0 cs0] eqn:Hv; [discriminate|rewrite <- Hv].
  unfold run_groups, bind.
  destruct (test_columns equal_var labels la lb (tbl_values t) vcs) as [e|tested] eqn:Ht;
    [discriminate|].
  destruct (test_columns_inr _ _ _ _ _ _ _ Ht) as [Hall ->].
  intros Ho.
  split; [eauto|]. split; [subst; discriminate|]. split; [exact Hall|].
  assert (Hmap : map (fun c => (c, match lookup c (tbl_values t) with
                              | None => None
                              | Some col => ttest equal_var (group_values la labels col)
                                                            (group_values lb labels col)
                              end)) vcs
                 = map (fun c => (c, raw_pvalue t g equal_var c)) vcs).
  { apply map_ext; intros c; unfold raw_pvalue; rewrite Hg, Hu; reflexivity. }
  rewrite Hmap in Ho.
  assert (Hn : count_tested (map (fun c => (c, raw_pvalue t g equal_var c)) vcs)
               = n_tested t g equal_var vcs).
  { unfold count_tested, n_tested. clear.
    induction vcs as [|c cs IH]; simpl; [reflexivity|].
    destruct (raw_pvalue t g equal_var c); simpl; auto. }
  rewrite Hn in Ho.
  destruct (sort_by _); inversion Ho; reflexivity.
Qed.

(** On valid inputs the call succeeds. *)
Lemma run_valid t g vcs alpha equal_var labels la lb :
  lookup g (tbl_labels t) = Some labels ->
  uniq (drop_missing labels) = [la; lb] ->
  vcs <> [] -> (forall c, In c vcs -> lookup c (tbl_values t) <> None) ->
  exists o, run_batch_ttest t g vcs alpha equal_var = inr o.
Proof.
  intros Hg Hu Hne Hall.
  unfold run_batch_ttest; rewrite Hg, Hu.
  destruct vcs as [|c0 cs0] eqn:Hv; [congruence|rewrite <- Hv; rewrite <- Hv in Hall].
  unfold run_groups.
  destruct (test_columns_all_present equal_var labels la lb (tbl_values t) vcs Hall)
    as [tested ->].
  simpl. destruct (sort_by _); eauto.
Qed.

Lemma insert_by_perm x l : Permutation (insert_by x l) (x :: l).
Proof.
  induction l as [|y l IH]; simpl; [reflexivity|].
  destruct (Qle_bool (snd x) (snd y)); [reflexivity|].
  rewrite IH. apply perm_swap.
Qed.

Lemma sort_by_perm l : Permutation (sort_by l) l.
Proof.
  induction l as [|x l IH]; simpl; [reflexivity|].
  rewrite insert_by_perm, IH; reflexivity.
Qed.

Lemma insert_by_sorted x l : Sorted le_p l -> Sorted le_p (insert_by x l).
Proof.
  induction 1 as [|y l Hs IH Hhd]; simpl; [repeat constructor|].
  destruct (Qle_bool (snd x) (snd y)) eqn:Hxy.
  - constructor; [constructor; auto|constructor; apply Qle_bool_iff; exact Hxy].
  - constructor; [exact IH|].
    assert (Hyx : snd y <= snd x).
    { apply Qlt_le_weak, Qnot_le_lt. rewrite <- Qle_bool_iff; congruence. }
    destruct l as [|z l]; simpl; [constructor; exact Hyx|].
    inversion Hhd; subst.
    destruct (Qle_bool (snd x) (snd z)); constructor; auto.
Qed.

Lemma sort_by_sorted l : Sorted le_p (sort_by l).
Proof.
  induction l; simpl; [constructor|apply insert_by_sorted; auto].
Qed.

Lemma before_cons {A} (h x y : A) l : before x y l -> before x y (h :: l).
Proof.
  intros (l1 & l2 & l3 & ->). exists (h :: l1), l2, l3; reflexivity.
Qed.

Lemma insert_by_before_self x y l :
  In y l -> snd x <= snd y -> before x y (insert_by x l).
Proof.
  induction l as [|z l IH]; simpl; [intros []|].
  intros Hin Hxy.
  destruct (Qle_bool (snd x) (snd z)) eqn:Hxz.
  - destruct Hin as [->|Hin].
    + exists [], [], l; reflexivity.
    + apply in_split in Hin as (l2 & l3 & ->).
      exists [], (z :: l2), l3; reflexivity.
  - destruct Hin as [->|Hin].
    + exfalso. rewrite <- Qle_bool_iff in Hxy; congruence.
    + apply before_cons, IH; auto.
Qed.

Lemma insert_by_before h x y l : before x y l -> before x y (insert_by h l).
Proof.
  induction l as [|z l IH]; simpl; intros Hb.
  - destruct Hb as (l1 & l2 & l3 & H). destruct l1; discriminate.
  - destruct (Qle_bool (snd h) (snd z)); [apply before_cons; exact Hb|].
    destruct Hb as ([|w l1] & l2 & l3 & H); simpl in H; inversion H; subst.
    + assert (Hin : In y (insert_by h (l2 ++ y :: l3))).
      { eapply Permutation_in; [symmetry; apply insert_by_perm|].
        right; apply in_or_app; right; left; reflexivity. }
      apply in_split in Hin as (m1 & m2 & ->).
      exists [], m1, m2; reflexivity.
    + apply before_cons, IH. exists l1, l2, l3; reflexivity.
Qed.

(** Stability: equal-key elements keep their relative order. *)
Lemma sort_by_before x y l :
  before x y l -> snd x == snd y -> before x y (sort_by l).
Proof.
  intros Hb Hxy. revert Hb.
  induction l as [|h l IH]; simpl; intros Hb.
  - destruct Hb as (l1 & l2 & l3 & H); destruct l1; discriminate.
  - destruct Hb as ([|w l1] & l2 & l3 & H); simpl in H; inversion H; subst.
    + apply insert_by_before_self; [|rewrite Hxy; apply Qle_refl].
      eapply Permutation_in; [symmetry; apply sort_by_perm|].
      apply in_or_app; right; left; reflexivity.
    + apply insert_by_before, IH. exists l1, l2, l3; reflexivity.
Qed.

Lemma retain_In alpha n f vcs c q :
  In (c, q) (retain alpha n (map (fun c => (c, f c)) vcs)) <->
  In c vcs /\ exists p, f c = Some p /\ q = p * inject_Z (Z.of_nat n) /\
                        p * inject_Z (Z.of_nat n) <= alpha.
Proof.
  induction vcs as [|c' cs IH]; simpl; [tauto|].
  destruct (f c') as [p'|] eqn:Hf.
  - destruct (Qle_bool (p' * inject_Z (Z.of_nat n)) alpha) eqn:Hle; simpl; rewrite IH.
    + split.
      * intros [Heq|[Hin Hex]]; [inversion Heq; subst|].
        -- split; [left; reflexivity|]. exists p'; repeat split; auto.
           apply Qle_bool_iff; exact Hle.
        -- split; [right; exact Hin|exact Hex].
      * intros [[<-|Hin] (p & Hp & -> & Hpl)].
        -- left. rewrite Hf in Hp; inversion Hp; reflexivity.
        -- right; split; [exact Hin|eauto].
    + split.
      * intros [Hin Hex]; split; [right; exact Hin|exact Hex].
      * intros [[<-|Hin] (p & Hp & -> & Hpl)].
        -- rewrite Hf in Hp; inversion Hp; subst.
           apply Qle_bool_iff in Hpl; congruence.
        -- split; [exact Hin|eauto].
  - rewrite IH. split.
    + intros [Hin Hex]; split; [right; exact Hin|exact Hex].
    + intros [[<-|Hin] (p & Hp & Hq)]; [congruence|].
      split; [exact Hin|eauto].
Qed.

Lemma ranked_In t g vcs alpha equal_var c q :
  In (c, q) (ranked t g vcs alpha equal_var) <->
  In c vcs /\ exists p, raw_pvalue t g equal_var c = Some p /\
    q = p * inject_Z (Z.of_nat (n_tested t g equal_var vcs)) /\
    p * inject_Z (Z.of_nat (n_tested t g equal_var vcs)) <= alpha.
Proof.
  unfold ranked. rewrite <- retain_In.
  split; apply Permutation_in; [|symmetry]; apply sort_by_perm.
Qed.

Lemma n_tested_pos t g equal_var vcs c p :
  In c vcs -> raw_pvalue t g equal_var c = Some p -> (0 < n_tested t g equal_var vcs)%nat.
Proof.
  intros Hin Hp. unfold n_tested.
  destruct (filter _ vcs) eqn:Hf; simpl; [|lia].
  assert (Hc : In c (filter (fun c => if raw_pvalue t g equal_var c then true else false) vcs)).
  { apply filter_In; rewrite Hp; auto. }
  rewrite Hf in Hc; destruct Hc.
Qed.


Lemma rows_of_run t g vcs alpha equal_var o :
  run_batch_ttest t g vcs alpha equal_var = inr o ->
  rows_of o = ranked t g vcs alpha equal_var.
Proof.
  intros H. destruct (run_inr_inv _ _ _ _ _ _ H) as (_ & _ & _ & ->).
  destruct (ranked t g vcs alpha equal_var); reflexivity.
Qed.

Lemma mult_le_div p a N : 0 < N -> (p * N <= a <-> p <= a / N).
Proof.
  intros HN. rewrite <- (Qmult_le_r p (a / N) N HN).
  assert (E : a / N * N == a).
  { field. intros HN0. rewrite HN0 in HN. discriminate. }
  rewrite E. reflexivity.
Qed.

Lemma inject_nat_pos n : (0 < n)%nat -> 0 < inject_Z (Z.of_nat n).
Proof. intros Hn. unfold Qlt; simpl; lia. Qed.

Lemma retain_app alpha n l1 l2 :
  retain alpha n (l1 ++ l2) = retain alpha n l1 ++ retain alpha n l2.
Proof.
  induction l1 as [|[c [p|]] l1 IH]; simpl; auto.
  destruct (Qle_bool _ alpha); simpl; rewrite IH; reflexivity.
Qed.

Lemma retain_one alpha n c p :
  p * inject_Z (Z.of_nat n) <= alpha ->
  retain alpha n [(c, Some p)] = [(c, p * inject_Z (Z.of_nat n))].
Proof.
  intros H. simpl. apply Qle_bool_iff in H. rewrite H. reflexivity.
Qed.

Lemma retain_before alpha n (f : string -> option Q) pre mid post c1 c2 r1 r2 :
  f c1 = Some r1 -> f c2 = Some r2 ->
  r1 * inject_Z (Z.of_nat n) <= alpha -> r2 * inject_Z (Z.of_nat n) <= alpha ->
  before (c1, r1 * inject_Z (Z.of_nat n)) (c2, r2 * inject_Z (Z.of_nat n))
    (retain alpha n (map (fun c => (c, f c)) (pre ++ c1 :: mid ++ c2 :: post))).
Proof.
  intros H1 H2 Hle1 Hle2.
  rewrite map_app, retain_app. cbn [map retain]. rewrite H1.
  apply Qle_bool_iff in Hle1, Hle2. rewrite Hle1.
  rewrite map_app, retain_app. cbn [map retain]. rewrite H2, Hle2.
  exists (retain alpha n (map (fun c => (c, f c)) pre)),
         (retain alpha n (map (fun c => (c, f c)) mid)),
         (retain alpha n (map (fun c => (c, f c)) post)).
  reflexivity.
Qed.

Lemma test_columns_first_absent equal_var labels la lb vals pre c post :
  (forall c', In c' pre -> lookup c' vals <> None) ->
  lookup c vals = None ->
  test_columns equal_var labels la lb vals (pre ++ c :: post) = inl (ColumnNotFoundError c).
Proof.
  induction pre as [|c0 pre IH]; simpl; intros Hpre Hc.
  - rewrite Hc. reflexivity.
  - destruct (lookup c0 vals) as [col|] eqn:H0; [|exfalso; apply (Hpre c0); auto].
    rewrite IH; auto.
Qed.

Lemma ranked_nil t g vcs alpha equal_var :
  ranked t g vcs alpha equal_var = [] <->
  (forall c p, In c vcs -> raw_pvalue t g equal_var c = Some p ->
     ~ p * inject_Z (Z.of_nat (n_tested t g equal_var vcs)) <= alpha).
Proof.
  split.
  - intros Hn c p Hc Hp Hle.
    assert (Hin : In (c, p * inject_Z (Z.of_nat (n_tested t g equal_var vcs)))
                     (ranked t g vcs alpha equal_var)).
    { apply ranked_In. split; [exact Hc|]. exists p; repeat split; auto. }
    rewrite Hn in Hin; destruct Hin.
  - intros Hno. destruct (ranked t g vcs alpha equal_var) as [|[c q] rs] eqn:Hr;
      [reflexivity|exfalso].
    assert (Hin : In (c, q) (ranked t g vcs alpha equal_var)) by (rewrite Hr; left; reflexivity).
    apply ranked_In in Hin as (Hc & p & Hp & _ & Hle).
    exact (Hno c p Hc Hp Hle).
Qed.

Lemma se2_df_swap equal_var xs ys :
  fst (se2_df equal_var xs ys) == fst (se2_df equal_var ys xs) /\
  snd (se2_df equal_var xs ys) == snd (se2_df equal_var ys xs).
Proof.
  unfold se2_df.
  set (na := qlen xs). set (nb := qlen ys).
  set (va := variance xs). set (vb := variance ys).
  destruct equal_var; simpl.
  - rewrite (Qplus_comm nb na). split; [|ring].
    rewrite (Qplus_comm ((nb - 1) * vb)). ring.
  - set (a := va / na). set (b := vb / nb).
    split; [apply Qplus_comm|].
    rewrite (Qplus_comm b a), (Qplus_comm (b * b / (nb - 1))). reflexivity.
Qed.

Lemma Qeq_bool_zero_compat x y : x == y -> Qeq_bool x 0 = Qeq_bool y 0.
Proof.
  intros H. destruct (Qeq_bool y 0) eqn:Hy.
  - apply Qeq_bool_iff in Hy. apply Qeq_bool_iff. rewrite H; exact Hy.
  - destruct (Qeq_bool x 0) eqn:Hx; [|reflexivity].
    apply Qeq_bool_iff in Hx. rewrite H in Hx. apply Qeq_bool_iff in Hx. congruence.
Qed.

Lemma ttest_swap equal_var xs ys : ttest equal_var xs ys = ttest equal_var ys xs.
Proof.
  unfold ttest. rewrite orb_comm.
  destruct (Nat.ltb (List.length ys) 2 || Nat.ltb (List.length xs) 2); [reflexivity|].
  destruct (se2_df_swap equal_var xs ys) as [Hs Hd].
  destruct (se2_df equal_var xs ys) as [s1 d1], (se2_df equal_var ys xs) as [s2 d2].
  simpl in Hs, Hd. rewrite (Qeq_bool_zero_compat _ _ Hs).
  destruct (Qeq_bool s2 0); [reflexivity|].
  f_equal. f_equal; apply Qred_complete; [|exact Hd].
  rewrite Hs. unfold Qdiv. ring.
Qed.

Lemma qlen_cons {A} (x : A) l : qlen (x :: l) == 1 + qlen l.
Proof.
  unfold qlen. simpl List.length. rewrite Nat2Z.inj_succ, <- Z.add_1_l, inject_Z_plus.
  reflexivity.
Qed.

Lemma qsum_const xs v : (forall x, In x xs -> x == v) -> qsum xs == qlen xs * v.
Proof.
  induction xs as [|x xs IH]; intros H.
  - unfold qsum, qlen; simpl. ring.
  - unfold qsum; simpl fold_right. fold (qsum xs).
    rewrite qlen_cons, (H x (or_introl eq_refl)), IH; [ring|].
    intros y Hy; apply H; right; exact Hy.
Qed.

Lemma variance_const xs v :
  (2 <= List.length xs)%nat -> (forall x, In x xs -> x == v) -> variance xs == 0.
Proof.
  intros Hl H. unfold variance.
  assert (Hm : mean xs == v).
  { unfold mean. rewrite (qsum_const xs v H).
    field. unfold qlen. intros E. apply Qeq_alt in E. unfold Qcompare in E; simpl in E.
    apply Z.compare_eq in E. lia. }
  rewrite (qsum_const _ 0); [unfold Qdiv; ring|].
  intros y Hy. apply in_map_iff in Hy as (x & <- & Hx).
  rewrite (H x Hx), Hm. ring.
Qed.

Lemma se2_df_zero equal_var xs ys :
  variance xs == 0 -> variance ys == 0 -> fst (se2_df equal_var xs ys) == 0.
Proof.
  intros Hx Hy. unfold se2_df.
  destruct equal_var; simpl; rewrite Hx, Hy; unfold Qdiv; ring.
Qed.

Lemma ttest_zero_spread equal_var xs ys :
  fst (se2_df equal_var xs ys) == 0 -> ttest equal_var xs ys = None.
Proof.
  intros H. unfold ttest.
  destruct (_ || _); [reflexivity|].
  destruct (se2_df equal_var xs ys) as [se2 df]; simpl in H.
  apply Qeq_bool_iff in H. rewrite H. reflexivity.
Qed.

Lemma ttest_small equal_var xs ys :
  (List.length xs < 2 \/ List.length ys < 2)%nat -> ttest equal_var xs ys = None.
Proof.
  intros H. unfold ttest.
  destruct H as [H|H]; apply Nat.ltb_lt in H; rewrite H; [reflexivity|].
  rewrite orb_true_r; reflexivity.
Qed.

Lemma group_values_In lab labels col x :
  In x (group_values lab labels col) -> In (Some x) col.
Proof.
  revert col; induction labels as [|[l|] labels IH]; intros [|[v|] col]; simpl;
    try tauto; intros H.
  - destruct (String.eqb l lab); [destruct H as [->|H]; [left; reflexivity|]|];
      right; apply IH; exact H.
  - right; apply IH; exact H.
  - right; apply IH; exact H.
  - right; apply IH; exact H.
Qed.

(** C1: when [run_batch_ttest] succeeds, a column is retained iff its raw
    p-value times the number of columns actually tested is at most
    [alpha], equivalently iff its raw p-value is at most [alpha / n_tested]
    ([alpha] defaults to [default_alpha] = 0.05). *)
Theorem run_batch_ttest_bonferroni t g vcs alpha equal_var o :
  run_batch_ttest t g vcs alpha equal_var = inr o ->
  forall c,
  (In c (map fst (rows_of o)) <->
   In c vcs /\ exists p, raw_pvalue t g equal_var c = Some p /\
     p * inject_Z (Z.of_nat (n_tested t g equal_var vcs)) <= alpha) /\
  (In c (map fst (rows_of o)) <->
   In c vcs /\ exists p, raw_pvalue t g equal_var c = Some p /\
     p <= alpha / inject_Z (Z.of_nat (n_tested t g equal_var vcs))).
Proof.
  intros H c. rewrite (rows_of_run _ _ _ _ _ _ H).
  assert (Hm : In c (map fst (ranked t g vcs alpha equal_var)) <->
               In c vcs /\ exists p, raw_pvalue t g equal_var c = Some p /\
                 p * inject_Z (Z.of_nat (n_tested t g equal_var vcs)) <= alpha).
  { rewrite in_map_iff. split.
    - intros ([c' q] & <- & Hin). apply ranked_In in Hin as (Hc & p & Hp & _ & Hle).
      split; eauto.
    - intros (Hc & p & Hp & Hle). exists (c, p * inject_Z (Z.of_nat (n_tested t g equal_var vcs))).
      split; [reflexivity|]. apply ranked_In. split; eauto. }
  split; [exact Hm|]. rewrite Hm. split.
  - intros (Hc & p & Hp & Hle). split; [exact Hc|]. exists p; split; [exact Hp|].
    apply mult_le_div; [apply inject_nat_pos; eapply n_tested_pos; eauto|exact Hle].
  - intros (Hc & p & Hp & Hle). split; [exact Hc|]. exists p; split; [exact Hp|].
    apply mult_le_div; [apply inject_nat_pos; eapply n_tested_pos; eauto|exact Hle].
Qed.

(** C2: a non-empty result is sorted ascending by corrected p-value, and
    of two retained columns with equal p-value the one earlier in
    [value_columns] comes earlier in the result. *)
Theorem run_batch_ttest_sorted_stable t g vcs alpha equal_var rows :
  run_batch_ttest t g vcs alpha equal_var = inr (ResultTable rows) ->
  Sorted le_p rows /\
  forall pre mid post c1 c2 p1 p2,
    vcs = pre ++ c1 :: mid ++ c2 :: post ->
    In (c1, p1) rows -> In (c2, p2) rows -> p1 == p2 ->
    before (c1, p1) (c2, p2) rows.
Proof.
  intros H. pose proof (rows_of_run _ _ _ _ _ _ H) as Hr; simpl in Hr; subst rows.
  split; [apply sort_by_sorted|].
  intros pre mid post c1 c2 p1 p2 Hv H1 H2 Heq.
  apply sort_by_before; [|exact Heq].
  apply ranked_In in H1 as (_ & r1 & Hr1 & -> & Hle1).
  apply ranked_In in H2 as (_ & r2 & Hr2 & -> & Hle2).
  set (n := n_tested t g equal_var vcs) in *.
  rewrite Hv. apply retain_before; assumption.
Qed.

(** C4: on valid inputs the call returns [EmptyResult] exactly when no
    column passes the corrected threshold; a present result is never an
    empty table, so the two outcomes are told apart. *)
Theorem run_batch_ttest_empty_result t g vcs alpha equal_var labels la lb :
  lookup g (tbl_labels t) = Some labels ->
  uniq (drop_missing labels) = [la; lb] ->
  vcs <> [] -> (forall c, In c vcs -> lookup c (tbl_values t) <> None) ->
  (run_batch_ttest t g vcs alpha equal_var = inr EmptyResult <->
   (forall c p, In c vcs -> raw_pvalue t g equal_var c = Some p ->
      ~ p * inject_Z (Z.of_nat (n_tested t g equal_var vcs)) <= alpha)) /\
  (forall rows, run_batch_ttest t g vcs alpha equal_var = inr (ResultTable rows) ->
     rows <> []).
Proof.
  intros Hg Hu Hne Hall.
  destruct (run_valid t g vcs alpha equal_var labels la lb Hg Hu Hne Hall) as [o Ho].
  destruct (run_inr_inv _ _ _ _ _ _ Ho) as (_ & _ & _ & Heq).
  rewrite Ho, Heq. split.
  - rewrite <- ranked_nil. split.
    + intros He.
      destruct (ranked t g vcs alpha equal_var); [reflexivity|discriminate].
    + intros Hr. rewrite Hr. reflexivity.
  - intros rows He.
    destruct (ranked t g vcs alpha equal_var); [discriminate|].
    inversion He; discriminate.
Qed.

(** C5: a present grouping column whose non-missing values have a number
    of distinct labels other than two makes the call fail with
    [InvalidGroupingError]. *)
Theorem run_batch_ttest_invalid_grouping t g vcs alpha equal_var labels :
  lookup g (tbl_labels t) = Some labels ->
  List.length (uniq (drop_missing labels)) <> 2%nat ->
  run_batch_ttest t g vcs alpha equal_var
    = inl (InvalidGroupingError (uniq (drop_missing labels))).
Proof.
  intros Hg Hlen. unfold run_batch_ttest. rewrite Hg.
  destruct (uniq (drop_missing labels)) as [|la [|lb [|x ds]]]; simpl in *;
    try reflexivity.
  exfalso; apply Hlen; reflexivity.
Qed.

(** C6 (amended): an absent grouping column fails with
    [ColumnNotFoundError] naming it; with a valid grouping, an absent value
    column fails with [ColumnNotFoundError] naming the first absent name of
    [value_columns]; with a present grouping column of another number of
    distinct labels, every call fails with [InvalidGroupingError] instead,
    whatever the value columns. *)
Theorem run_batch_ttest_column_not_found t g alpha equal_var :
  (lookup g (tbl_labels t) = None ->
   forall vcs, run_batch_ttest t g vcs alpha equal_var = inl (ColumnNotFoundError g)) /\
  (forall labels vcs,
   lookup g (tbl_labels t) = Some labels ->
   List.length (uniq (drop_missing labels)) <> 2%nat ->
   run_batch_ttest t g vcs alpha equal_var
     = inl (InvalidGroupingError (uniq (drop_missing labels)))) /\
  (forall labels la lb pre c post,
   lookup g (tbl_labels t) = Some labels ->
   uniq (drop_missing labels) = [la; lb] ->
   (forall c', In c' pre -> lookup c' (tbl_values t) <> None) ->
   lookup c (tbl_values t) = None ->
   run_batch_ttest t g (pre ++ c :: post) alpha equal_var = inl (ColumnNotFoundError c)).
Proof.
  split; [|split].
  - intros Hg vcs. unfold run_batch_ttest. rewrite Hg. reflexivity.
  - intros labels vcs Hg Hlen. unfold run_batch_ttest. rewrite Hg.
    destruct (uniq (drop_missing labels)) as [|la [|lb [|x ds]]]; simpl in *;
      try reflexivity.
    exfalso; apply Hlen; reflexivity.
  - intros labels la lb pre c post Hg Hu Hpre Hc.
    unfold run_batch_ttest. rewrite Hg, Hu.
    destruct (pre ++ c :: post) as [|c0 cs0] eqn:Hv; [destruct pre; discriminate|].
    rewrite <- Hv. unfold run_groups.
    rewrite test_columns_first_absent; auto.
Qed.

(** C7: raising [alpha] never removes a column from the result (so
    lowering it never adds one). *)
Theorem run_batch_ttest_alpha_monotone t g vcs equal_var alpha1 alpha2 o1 :
  alpha1 <= alpha2 ->
  run_batch_ttest t g vcs alpha1 equal_var = inr o1 ->
  exists o2, run_batch_ttest t g vcs alpha2 equal_var = inr o2 /\
    incl (map fst (rows_of o1)) (map fst (rows_of o2)).
Proof.
  intros Ha H1.
  destruct (run_inr_inv _ _ _ _ _ _ H1) as ((labels & la & lb & Hg & Hu) & Hne & Hall & _).
  destruct (run_valid t g vcs alpha2 equal_var labels la lb Hg Hu Hne Hall) as [o2 H2].
  exists o2; split; [exact H2|].
  rewrite (rows_of_run _ _ _ _ _ _ H1), (rows_of_run _ _ _ _ _ _ H2).
  intros c Hc. apply in_map_iff in Hc as ([c' q] & <- & Hin).
  apply ranked_In in Hin as (Hc & p & Hp & -> & Hle).
  apply in_map_iff. exists (c', p * inject_Z (Z.of_nat (n_tested t g equal_var vcs))).
  split; [reflexivity|]. apply ranked_In. split; [exact Hc|].
  exists p; repeat split; auto. eapply Qle_trans; eauto.
Qed.

(** C3: with a valid grouping and every requested column present, a
    column with fewer than 2 non-missing values in a group, or whose
    non-missing values are all the same, is skipped: it gets no p-value,
    the batch still succeeds, and the column is not in the result. *)
Theorem run_batch_ttest_skips_untestable t g vcs alpha equal_var labels la lb c col :
  lookup g (tbl_labels t) = Some labels ->
  uniq (drop_missing labels) = [la; lb] ->
  (forall c', In c' vcs -> lookup c' (tbl_values t) <> None) ->
  In c vcs -> lookup c (tbl_values t) = Some col ->
  ((List.length (group_values la labels col) < 2 \/
    List.length (group_values lb labels col) < 2)%nat \/
   (exists v, forall x, In (Some x) col -> x == v)) ->
  raw_pvalue t g equal_var c = None /\
  exists o, run_batch_ttest t g vcs alpha equal_var = inr o /\
    ~ In c (map fst (rows_of o)).
Proof.
  intros Hg Hu Hall Hc Hcol Hun.
  assert (Hnone : raw_pvalue t g equal_var c = None).
  { unfold raw_pvalue. rewrite Hg, Hu, Hcol.
    destruct Hun as [Hsmall|[v Hv]]; [apply ttest_small; exact Hsmall|].
    destruct (Nat.lt_ge_cases (List.length (group_values la labels col)) 2) as [H1|H1];
      [apply ttest_small; left; exact H1|].
    destruct (Nat.lt_ge_cases (List.length (group_values lb labels col)) 2) as [H2|H2];
      [apply ttest_small; right; exact H2|].
    apply ttest_zero_spread, se2_df_zero; eapply variance_const; eauto;
      intros x Hx; apply Hv; eapply group_values_In; eauto. }
  split; [exact Hnone|].
  destruct (run_valid t g vcs alpha equal_var labels la lb Hg Hu) as [o Ho];
    [intros ->; destruct Hc|exact Hall|].
  exists o; split; [exact Ho|].
  rewrite (rows_of_run _ _ _ _ _ _ Ho). intros Hin.
  apply in_map_iff in Hin as ([c' q] & <- & Hin).
  apply ranked_In in Hin as (_ & p & Hp & _). simpl in *. congruence.
Qed.

(** C8: swapping which of the two labels is the first group changes no
    p-value, hence not the outcome of the batch either. *)
Theorem run_groups_swap labels la lb vals vcs alpha equal_var :
  (forall col, ttest equal_var (group_values la labels col) (group_values lb labels col)
             = ttest equal_var (group_values lb labels col) (group_values la labels col)) /\
  run_groups labels la lb vals vcs alpha equal_var
    = run_groups labels lb la vals vcs alpha equal_var.
Proof.
  split; [intros; apply ttest_swap|].
  unfold run_groups.
  replace (test_columns equal_var labels la lb vals vcs)
    with (test_columns equal_var labels lb la vals vcs); [reflexivity|].
  induction vcs as [|c cs IH]; simpl; [reflexivity|].
  destruct (lookup c vals) as [col|]; [|reflexivity].
  rewrite IH, ttest_swap. reflexivity.
Qed.

End Facts.
End EngineFacts.

(** * Proofs about the notebook *)

Module NotebookFacts.
Import Engine Notebook.

Lemma row_get_set r col v : row_get (row_set r col v) col = Some v.
Proof.
  unfold row_get. induction r as [|[k x] r IH]; simpl.
  - rewrite String.eqb_refl. reflexivity.
  - destruct (String.eqb col k) eqn:Hk; simpl; rewrite Hk; [reflexivity|exact IH].
Qed.

(** The loop sets, in each row, the label computed from the snapshot row
    with the same index. *)
Lemma binarize_loop_map status_col group_col snap df df' :
  NoDup (map fst snap) ->
  binarize_loop status_col group_col snap df = Some df' ->
  (forall i r0, In (i, r0) snap -> row_get r0 status_col <> None) /\
  df' = map (fun ir => match lookup (fst ir) snap with
                       | Some r0 =>
                           match row_get r0 status_col with
                           | Some v => (fst ir, row_set (snd ir) group_col (Str (status_label v)))
                           | None => ir
                           end
                       | None => ir
                       end) df.
Proof.
  revert df. induction snap as [|[i0 r0] rest IH]; simpl; intros df Hnd H.
  - inversion H; subst. split; [tauto|]. rewrite map_id. reflexivity.
  - inversion Hnd as [|? ? Hi0 Hnd']; subst.
    destruct (row_get r0 status_col) as [v|] eqn:Hv; [|discriminate].
    destruct (IH _ Hnd' H) as [Hall ->]. split.
    + intros i r [E|Hin]; [inversion E; subst; congruence|eauto].
    + unfold frame_at_set. rewrite map_map. apply map_ext.
      intros [i r]; simpl.
      destruct (String.eqb i i0) eqn:Hii; simpl.
      * apply String.eqb_eq in Hii; subst i.
        destruct (lookup i0 rest) as [r1|] eqn:Hl.
        -- exfalso. apply Hi0. clear -Hl.
           induction rest as [|[k x] rest IH]; simpl in *; [discriminate|].
           destruct (String.eqb i0 k) eqn:E; [left; apply String.eqb_eq in E; auto|right; auto].
        -- rewrite Hv. reflexivity.
      * reflexivity.
Qed.

Lemma lookup_NoDup_In {A} (l : list (string * A)) i x :
  NoDup (map fst l) -> In (i, x) l -> lookup i l = Some x.
Proof.
  induction l as [|[k y] l IH]; simpl; intros Hnd Hin; [destruct Hin|].
  inversion Hnd as [|? ? Hk Hnd']; subst.
  destruct Hin as [E|Hin].
  - inversion E; subst. rewrite String.eqb_refl. reflexivity.
  - destruct (String.eqb i k) eqn:E.
    + apply String.eqb_eq in E; subst. exfalso; apply Hk.
      apply in_map_iff. exists (k, x); auto.
    + apply IH; auto.
Qed.

Lemma uniq_acc_spec seen l :
  NoDup (uniq_acc seen l) /\ (forall x, In x (uniq_acc seen l) -> In x l /\ ~ In x seen).
Proof.
  revert seen; induction l as [|y l IH]; intros seen; simpl; [split; [constructor|tauto]|].
  destruct (existsb (String.eqb y) seen) eqn:Hy.
  - destruct (IH seen) as [Hnd Hin]. split; [exact Hnd|].
    intros x Hx. destruct (Hin x Hx). split; [right|]; auto.
  - destruct (IH (y :: seen)) as [Hnd Hin]. split.
    + constructor; [|exact Hnd]. intros Hx. destruct (Hin y Hx) as [_ Hn]. apply Hn; left; auto.
    + intros x [<-|Hx].
      * split; [left; auto|]. intros Hs.
        assert (existsb (String.eqb y) seen = true).
        { apply existsb_exists. exists y. split; [exact Hs|apply String.eqb_refl]. }
        congruence.
      * destruct (Hin x Hx) as [Hxl Hxs]. split; [right; exact Hxl|].
        intros Hs; apply Hxs; right; exact Hs.
Qed.

Lemma uniq_two_labels (l : list string) a b :
  (forall x, In x l -> x = a \/ x = b) -> (List.length (uniq l) <= 2)%nat.
Proof.
  intros H. destruct (uniq_acc_spec [] l) as [Hnd Hin].
  change (uniq_acc [] l) with (uniq l) in Hnd, Hin.
  apply (NoDup_incl_length (l' := [a; b])) in Hnd; [exact Hnd|].
  intros x Hx. destruct (H x (proj1 (Hin x Hx))) as [->| ->]; simpl; auto.
Qed.

Lemma Forall2_map_self {A B} (R : A -> B -> Prop) (f : A -> B) l :
  (forall x, In x l -> R x (f x)) -> Forall2 R l (map f l).
Proof.
  induction l as [|x l IH]; simpl; intros H; constructor; auto.
Qed.

Lemma drop_missing_In {A} (l : list (option A)) x : In x (drop_missing l) -> In (Some x) l.
Proof.
  induction l as [|[y|] l IH]; simpl; [tauto| |].
  - intros [->|Hx]; [left; reflexivity|right; auto].
  - intros Hx; right; auto.
Qed.

(** C10: after the binarization loop, every row carries ['Mutated'] when
    its mutation status differs from ['Wildtype_Tumor'] and ['Wildtype']
    otherwise, so the grouping column has at most two distinct
    non-missing values.  The frame's index is the sample identifier,
    unique per row. *)
Theorem binarize_two_labels gene group_col df df' :
  NoDup (map fst df) ->
  binarize gene group_col df = Some df' ->
  Forall2 (fun ir ir' =>
             fst ir' = fst ir /\
             exists v, row_get (snd ir) (String.append gene "_Mutation_Status") = Some v /\
               row_get (snd ir') group_col
                 = Some (Str (if cell_ne_str v "Wildtype_Tumor" then "Mutated" else "Wildtype")))
          df df' /\
  (forall ir', In ir' df' ->
     row_get (snd ir') group_col = Some (Str "Mutated") \/
     row_get (snd ir') group_col = Some (Str "Wildtype")) /\
  (List.length (uniq (drop_missing (group_labels group_col df'))) <= 2)%nat.
Proof.
  intros Hnd H. unfold binarize in H.
  destruct (binarize_loop_map _ _ _ _ _ Hnd H) as [Hall ->].
  assert (Hrow : forall i r, In (i, r) df ->
    exists v, row_get r (String.append gene "_Mutation_Status") = Some v /\
      row_get (snd (match lookup i df with
                    | Some r0 => match row_get r0 (String.append gene "_Mutation_Status") with
                                 | Some v => (i, row_set r group_col (Str (status_label v)))
                                 | None => (i, r)
                                 end
                    | None => (i, r)
                    end)) group_col = Some (Str (status_label v))).
  { intros i r Hin. rewrite (lookup_NoDup_In _ _ _ Hnd Hin).
    destruct (row_get r (String.append gene "_Mutation_Status")) as [v|] eqn:Hv;
      [|exfalso; exact (Hall i r Hin Hv)].
    exists v; split; [reflexivity|]. simpl. apply row_get_set. }
  assert (Hlab : forall ir', In ir' (map (fun ir => match lookup (fst ir) df with
                           | Some r0 =>
                               match row_get r0 (String.append gene "_Mutation_Status") with
                               | Some v => (fst ir, row_set (snd ir) group_col (Str (status_label v)))
                               | None => ir
                               end
                           | None => ir
                           end) df) ->
     row_get (snd ir') group_col = Some (Str "Mutated") \/
     row_get (snd ir') group_col = Some (Str "Wildtype")).
  { intros ir' Hin. apply in_map_iff in Hin as ([i r] & <- & Hin).
    destruct (Hrow i r Hin) as (v & _ & Hg). simpl fst; simpl snd. rewrite Hg.
    unfold status_label; destruct (cell_ne_str v _); auto. }
  split; [|split; [exact Hlab|]].
  - clear Hlab. apply Forall2_map_self.
    intros [i r] Hin. destruct (Hrow i r Hin) as (v & Hv & Hg). cbn [fst snd].
    split; [destruct (lookup i df) as [r0|]; [destruct (row_get r0 _)|]; reflexivity|].
    exists v; split; [exact Hv|exact Hg].
  - apply (uniq_two_labels _ "Mutated" "Wildtype").
    intros x Hx. apply drop_missing_In in Hx. unfold group_labels in Hx.
    apply in_map_iff in Hx as (ir' & Hx & Hin).
    destruct (Hlab ir' Hin) as [E|E]; rewrite E in Hx; inversion Hx; auto.
Qed.


(** ** Helpers on rows, frames and columns *)

Lemma lookup_None_iff {A} k (r : list (string * A)) :
  lookup k r = None <-> ~ In k (map fst r).
Proof.
  induction r as [|[k' x] r IH]; simpl; [tauto|].
  destruct (String.eqb k k') eqn:E.
  - apply String.eqb_eq in E; subst. split; [discriminate|]. intros H; exfalso; apply H; left; auto.
  - apply String.eqb_neq in E. rewrite IH. split.
    + intros H [H'|H']; [congruence|tauto].
    + intros H H'; apply H; right; exact H'.
Qed.

Lemma uniq_acc_complete seen l x : In x l -> In x seen \/ In x (uniq_acc seen l).
Proof.
  revert seen; induction l as [|y l IH]; simpl; intros seen Hx; [destruct Hx|].
  destruct (existsb (String.eqb y) seen) eqn:Hy.
  - destruct Hx as [<-|Hx]; [|apply IH; exact Hx].
    left. apply existsb_exists in Hy as (z & Hz & E). apply String.eqb_eq in E; subst; exact Hz.
  - destruct Hx as [<-|Hx]; [right; left; reflexivity|].
    destruct (IH (y :: seen) Hx) as [[<-|H]|H]; auto.
    + right; left; reflexivity.
    + right; right; exact H.
Qed.

Lemma frame_columns_In df k :
  In k (frame_columns df) <-> exists ir, In ir df /\ row_get (snd ir) k <> None.
Proof.
  unfold frame_columns, uniq. split.
  - intros Hk. destruct (uniq_acc_spec [] (concat (map (fun ir => map fst (snd ir)) df))) as [_ Hin].
    destruct (Hin k Hk) as [Hc _]. apply in_concat in Hc as (ks & Hks & Hk').
    apply in_map_iff in Hks as (ir & <- & Hir). exists ir; split; [exact Hir|].
    unfold row_get. rewrite lookup_None_iff. tauto.
  - intros (ir & Hir & Hk). unfold row_get in Hk. rewrite lookup_None_iff in Hk.
    destruct (uniq_acc_complete [] (concat (map (fun ir => map fst (snd ir)) df)) k)
      as [[]|H]; [|exact H].
    apply in_concat. exists (map fst (snd ir)).
    split; [apply (in_map (fun ir => map fst (snd ir))); exact Hir|].
    destruct (in_dec String.string_dec k (map fst (snd ir))); tauto.
Qed.

Lemma frame_columns_NoDup df : NoDup (frame_columns df).
Proof. apply uniq_acc_spec. Qed.


Lemma row_get_set_other r col v k : k <> col -> row_get (row_set r col v) k = row_get r k.
Proof.
  unfold row_get. intros Hk. induction r as [|[k' x] r IH]; simpl.
  - apply String.eqb_neq in Hk. rewrite Hk. reflexivity.
  - destruct (String.eqb col k') eqn:Hc; simpl.
    + apply String.eqb_eq in Hc; subst.
      apply String.eqb_neq in Hk. rewrite Hk. reflexivity.
    + destruct (String.eqb k k'); [reflexivity|exact IH].
Qed.

Lemma row_get_del r col k :
  row_get (row_del r col) k = if String.eqb k col then None else row_get r k.
Proof.
  unfold row_get, row_del. induction r as [|[k' x] r IH]; simpl.
  - destruct (String.eqb k col); reflexivity.
  - destruct (String.eqb k' col) eqn:Hc; simpl.
    + apply String.eqb_eq in Hc; subst. rewrite IH.
      destruct (String.eqb k col); reflexivity.
    + rewrite IH. destruct (String.eqb k col) eqn:Hk; [|reflexivity].
      apply String.eqb_eq in Hk; subst. rewrite String.eqb_sym, Hc. reflexivity.
Qed.

Lemma Forall2_In_r {A B} (R : A -> B -> Prop) l l' y :
  Forall2 R l l' -> In y l' -> exists x, In x l /\ R x y.
Proof.
  induction 1 as [|x y' l l' Hxy _ IH]; simpl; [tauto|].
  intros [<-|Hy]; [eauto|]. destruct (IH Hy) as (x' & Hx' & Hr); eauto.
Qed.

Lemma Forall2_map_fst {B} (R : string * B -> string * B -> Prop) l l' :
  (forall a b, R a b -> fst b = fst a) -> Forall2 R l l' -> map fst l' = map fst l.
Proof.
  intros HR; induction 1; simpl; [reflexivity|]. f_equal; auto.
Qed.

Lemma binarize_rows gene group_col df df' :
  NoDup (map fst df) ->
  binarize gene group_col df = Some df' ->
  Forall2 (binarize_rel (String.append gene "_Mutation_Status") group_col) df df'.
Proof.
  intros Hnd H. unfold binarize in H.
  destruct (binarize_loop_map _ _ _ _ _ Hnd H) as [Hall ->].
  apply Forall2_map_self. intros [i r] Hin. cbn [fst snd].
  rewrite (lookup_NoDup_In _ _ _ Hnd Hin).
  destruct (row_get r (String.append gene "_Mutation_Status")) as [v|] eqn:Hv;
    [|exfalso; exact (Hall i r Hin Hv)].
  split; [reflexivity|]. split.
  - exists v; split; [exact Hv|apply row_get_set].
  - intros k Hk; apply row_get_set_other; exact Hk.
Qed.


Lemma tumor_only_rows df df' :
  tumor_only df = Some df' ->
  (forall ir, In ir df' <-> In ir df /\ row_get (snd ir) "Sample_Status" = Some (Str "Tumor")) /\
  (NoDup (map fst df) -> NoDup (map fst df')).
Proof.
  unfold tumor_only. destruct (existsb _ _); [|discriminate]. intros H; inversion H; subst; clear H.
  split.
  - intros ir. rewrite filter_In.
    destruct (row_get (snd ir) "Sample_Status") as [[|s|q]|]; try (split; [intros [_ H]; discriminate|intros [_ H]; discriminate]).
    destruct (String.eqb s "Tumor") eqn:E.
    + apply String.eqb_eq in E; subst. tauto.
    + split; [intros [_ H]; discriminate|intros [_ H]; inversion H; subst; rewrite String.eqb_refl in E; discriminate].
  - induction df as [|ir df IH]; simpl; [auto|]. intros Hnd. inversion Hnd as [|? ? Hn Hnd']; subst.
    destruct (match row_get (snd ir) "Sample_Status" with
              | Some (Str s) => String.eqb s "Tumor" | _ => false end); simpl; [|auto].
    constructor; [|auto]. intros Hin. apply Hn.
    apply in_map_iff in Hin as (ir' & E & Hin). apply filter_In in Hin as [Hin _].
    rewrite <- E; apply in_map; exact Hin.
Qed.


Lemma drop_col_rows df col df' :
  drop_col df col = Some df' -> Forall2 (drop_rel col) df df'.
Proof.
  unfold drop_col. destruct (existsb _ _); [|discriminate]. intros H; inversion H; subst.
  apply Forall2_map_self. intros [i r] _. unfold drop_rel; cbn [fst snd].
  split; [reflexivity|]. rewrite row_get_del, String.eqb_refl. split; [reflexivity|].
  intros k Hk. rewrite row_get_del. apply String.eqb_neq in Hk. rewrite Hk. reflexivity.
Qed.

Lemma drop_rel_absent col k ir ir' :
  drop_rel col ir ir' -> row_get (snd ir) k = None -> row_get (snd ir') k = None.
Proof.
  intros (_ & Hc & Ho) Hk. destruct (String.string_dec k col) as [->|Hne]; [exact Hc|].
  rewrite Ho; auto.
Qed.


Lemma list_remove_Some x l l' :
  NoDup l -> list_remove x l = Some l' ->
  NoDup l' /\ forall y, In y l' <-> In y l /\ y <> x.
Proof.
  revert l'; induction l as [|y l IH]; simpl; intros l' Hnd H; [discriminate|].
  inversion Hnd as [|? ? Hy Hnd']; subst.
  destruct (String.eqb y x) eqn:E.
  - inversion H; subst. apply String.eqb_eq in E; subst.
    split; [exact Hnd'|]. intros z. split.
    + intros Hz; split; [right; exact Hz|intros ->; contradiction].
    + intros [[->|Hz] Hne]; [congruence|exact Hz].
  - destruct (list_remove x l) as [l0|] eqn:Hl; [|discriminate]. inversion H; subst.
    apply String.eqb_neq in E. destruct (IH l0 Hnd' eq_refl) as [Hnd0 Hin0].
    split.
    + constructor; [|exact Hnd0]. intros Hy0. apply Hy. apply Hin0 in Hy0; tauto.
    + intros z. simpl. rewrite Hin0. split.
      * intros [<-|[Hz Hne]]; [split; [left; auto|auto]|split; [right; auto|auto]].
      * intros [[<-|Hz] Hne]; [left; auto|right; auto].
Qed.

(** ** Properties of the notebook cells *)

(** X1: the binarization loop keeps the rows, their order and index
    labels, and every column other than the grouping column. *)
Theorem binarize_frame_effect gene group_col df df' :
  NoDup (map fst df) ->
  binarize gene group_col df = Some df' ->
  map fst df' = map fst df /\
  Forall2 (fun ir ir' => forall k, k <> group_col -> row_get (snd ir') k = row_get (snd ir) k)
          df df'.
Proof.
  intros Hnd H. pose proof (binarize_rows _ _ _ _ Hnd H) as HF.
  split.
  - apply (Forall2_map_fst _ _ _ (fun a b (Hr : binarize_rel _ _ a b) => proj1 Hr) HF).
  - eapply Forall2_impl; [|exact HF]. intros a b (_ & _ & Ho); exact Ho.
Qed.




(** X6: cells 14, 18, 19 and 22 together: every row handed to [wrap_ttest]
    comes from a tumor row of the joined frame, with the same sample id,
    and carries the label of that row's mutation status; sample ids stay
    unique; [col_list] has no duplicate and contains neither the grouping
    column nor any of the dropped bookkeeping columns. *)
Theorem prepare_spec gene group_col df df' cols :
  NoDup (map fst df) ->
  ~ In group_col [String.append gene "_Mutation"; String.append gene "_Location";
                  String.append gene "_Mutation_Status"; "Sample_Status"] ->
  prepare gene group_col df = Some (df', cols) ->
  (forall ir', In ir' df' ->
     exists r v, In (fst ir', r) df /\
       row_get r "Sample_Status" = Some (Str "Tumor") /\
       row_get r (String.append gene "_Mutation_Status") = Some v /\
       row_get (snd ir') group_col = Some (Str (status_label v))) /\
  NoDup (map fst df') /\ NoDup cols /\ ~ In group_col cols /\
  (forall d, In d [String.append gene "_Mutation"; String.append gene "_Location";
                   String.append gene "_Mutation_Status"; "Sample_Status"] -> ~ In d cols).
Proof.
  intros Hnd Hgc H. unfold prepare in H.
  destruct (tumor_only df) as [df1|] eqn:H1; [|discriminate].
  destruct (binarize gene group_col df1) as [df2|] eqn:H2; [|discriminate].
  destruct (drop_col df2 (String.append gene "_Mutation")) as [df3|] eqn:H3; [|discriminate].
  destruct (drop_col df3 (String.append gene "_Location")) as [df4|] eqn:H4; [|discriminate].
  destruct (drop_col df4 (String.append gene "_Mutation_Status")) as [df5|] eqn:H5; [|discriminate].
  destruct (drop_col df5 "Sample_Status") as [df6|] eqn:H6; [|discriminate].
  destruct (col_list_of group_col df6) as [cs|] eqn:H7; [|discriminate].
  inversion H; subst df6 cs; clear H.
  destruct (tumor_only_rows _ _ H1) as [Hin1 Hnd1]. specialize (Hnd1 Hnd).
  pose proof (binarize_rows _ _ _ _ Hnd1 H2) as F2.
  pose proof (drop_col_rows _ _ _ H3) as F3. pose proof (drop_col_rows _ _ _ H4) as F4.
  pose proof (drop_col_rows _ _ _ H5) as F5. pose proof (drop_col_rows _ _ _ H6) as F6.
  destruct (list_remove_Some _ _ _ (frame_columns_NoDup df') H7) as [Hndc Hc].
  assert (Hne : forall d, In d [String.append gene "_Mutation"; String.append gene "_Location";
                   String.append gene "_Mutation_Status"; "Sample_Status"] -> group_col <> d).
  { intros d Hd ->; contradiction. }
  split; [|split; [|split; [exact Hndc|split]]].
  - intros ir6 Hir6.
    destruct (Forall2_In_r _ _ _ _ F6 Hir6) as (ir5 & Hir5 & E5 & _ & O5).
    destruct (Forall2_In_r _ _ _ _ F5 Hir5) as (ir4 & Hir4 & E4 & _ & O4).
    destruct (Forall2_In_r _ _ _ _ F4 Hir4) as (ir3 & Hir3 & E3 & _ & O3).
    destruct (Forall2_In_r _ _ _ _ F3 Hir3) as (ir2 & Hir2 & E2 & _ & O2).
    destruct (Forall2_In_r _ _ _ _ F2 Hir2) as (ir1 & Hir1 & E1 & (v & Hv & Hl) & _).
    destruct ir1 as [i r]. exists r, v.
    apply Hin1 in Hir1 as [Hir1 Hts].
    rewrite E5, E4, E3, E2, E1. split; [exact Hir1|]. split; [exact Hts|]. split; [exact Hv|].
    rewrite O5, O4, O3, O2; [exact Hl| |  | |]; apply Hne; simpl; tauto.
  - rewrite (Forall2_map_fst _ _ _ (fun a b (Hr : drop_rel _ a b) => proj1 Hr) F6),
            (Forall2_map_fst _ _ _ (fun a b (Hr : drop_rel _ a b) => proj1 Hr) F5),
            (Forall2_map_fst _ _ _ (fun a b (Hr : drop_rel _ a b) => proj1 Hr) F4),
            (Forall2_map_fst _ _ _ (fun a b (Hr : drop_rel _ a b) => proj1 Hr) F3),
            (Forall2_map_fst _ _ _ (fun a b (Hr : binarize_rel _ _ a b) => proj1 Hr) F2).
    exact Hnd1.
  - intros Hg. apply Hc in Hg as [_ Hg]. apply Hg; reflexivity.
  - intros d Hd Hdc. apply Hc in Hdc as [Hdc _].
    apply frame_columns_In in Hdc as (ir6 & Hir6 & Hs). apply Hs.
    destruct (Forall2_In_r _ _ _ _ F6 Hir6) as (ir5 & Hir5 & R6).
    destruct (Forall2_In_r _ _ _ _ F5 Hir5) as (ir4 & Hir4 & R5).
    destruct (Forall2_In_r _ _ _ _ F4 Hir4) as (ir3 & Hir3 & R4).
    destruct (Forall2_In_r _ _ _ _ F3 Hir3) as (ir2 & Hir2 & R3).
    simpl in Hd. destruct Hd as [<-|[<-|[<-|[<-|[]]]]].
    + apply (drop_rel_absent _ _ _ _ R6), (drop_rel_absent _ _ _ _ R5),
            (drop_rel_absent _ _ _ _ R4). apply R3.
    + apply (drop_rel_absent _ _ _ _ R6), (drop_rel_absent _ _ _ _ R5). apply R4.
    + apply (drop_rel_absent _ _ _ _ R6). apply R5.
    + apply R6.
Qed.

End NotebookFacts.

(** * Concrete runs *)

Module Witnesses.
Import Engine Notebook EngineFacts NotebookFacts.
Local Open Scope Q_scope.

(** A stand-in for the t-distribution tail, decreasing in [t^2]. *)
Definition demo_tail : TwoSidedTail := fun a _ => Qred (1 / (1 + a)).

(** Scenario A and B: [X] and [Y] separate the groups, [Z] is constant,
    [W] has a single mutated value. *)
Definition tB : table :=
  mk_table [("G", [Some "Mutated"; Some "Mutated"; Some "Wildtype"; Some "Wildtype"; None])]
    [("X", [Some 10; Some 11; Some 0; Some 1; Some 5]);
     ("Y", [Some 20; Some 21; Some 10; Some 11; None]);
     ("Z", [Some 3; Some 3; Some 3; Some 3; None]);
     ("W", [Some 4; None; Some 7; Some 9; Some 1])].

Definition vB : list string := ["X"; "Y"; "Z"; "W"].

Definition labB : list (option string) :=
  [Some "Mutated"; Some "Mutated"; Some "Wildtype"; Some "Wildtype"; None].

Definition rowsB : list (string * Q) := [("X", 2 # 201); ("Y", 2 # 201)].

(** Scenario C: three labels. *)
Definition t3 : table :=
  mk_table [("G", [Some "a"; Some "b"; Some "c"])] [("X", [Some 1; Some 2; Some 3])].

Lemma vB_present : forall c, In c vB -> lookup c (tbl_values tB) <> None.
Proof.
  intros c Hc; repeat destruct Hc as [<-|Hc]; try discriminate; destruct Hc.
Qed.

Lemma run_batch_ttest_bonferroni_witness :
  run_batch_ttest (tail := demo_tail) tB "G" vB default_alpha false = inr (ResultTable rowsB) /\
  forall c,
  (In c (map fst (rows_of (ResultTable rowsB))) <->
   In c vB /\ exists p, raw_pvalue (tail := demo_tail) tB "G" false c = Some p /\
     p * inject_Z (Z.of_nat (n_tested (tail := demo_tail) tB "G" false vB)) <= default_alpha) /\
  (In c (map fst (rows_of (ResultTable rowsB))) <->
   In c vB /\ exists p, raw_pvalue (tail := demo_tail) tB "G" false c = Some p /\
     p <= default_alpha / inject_Z (Z.of_nat (n_tested (tail := demo_tail) tB "G" false vB))).
Proof.
  split; [vm_compute; reflexivity|].
  apply run_batch_ttest_bonferroni. vm_compute; reflexivity.
Defined.

Lemma run_batch_ttest_sorted_stable_witness :
  run_batch_ttest (tail := demo_tail) tB "G" vB default_alpha false = inr (ResultTable rowsB) /\
  Sorted le_p rowsB /\
  forall pre mid post c1 c2 p1 p2,
    vB = pre ++ c1 :: mid ++ c2 :: post ->
    In (c1, p1) rowsB -> In (c2, p2) rowsB -> p1 == p2 ->
    before (c1, p1) (c2, p2) rowsB.
Proof.
  split; [vm_compute; reflexivity|].
  apply (run_batch_ttest_sorted_stable (tail := demo_tail) tB "G" vB default_alpha false).
  vm_compute; reflexivity.
Defined.

Lemma run_batch_ttest_skips_untestable_witness :
  raw_pvalue (tail := demo_tail) tB "G" false "Z" = None /\
  exists o, run_batch_ttest (tail := demo_tail) tB "G" vB default_alpha false = inr o /\
    ~ In "Z" (map fst (rows_of o)).
Proof.
  apply (run_batch_ttest_skips_untestable (tail := demo_tail) tB "G" vB default_alpha false
           labB "Mutated" "Wildtype" "Z" [Some 3; Some 3; Some 3; Some 3; None]);
    try reflexivity.
  - exact vB_present.
  - simpl; auto.
  - right. exists 3. intros x Hx; repeat destruct Hx as [Hx|Hx]; inversion Hx; reflexivity.
Defined.

Lemma run_batch_ttest_empty_result_witness :
  (run_batch_ttest (tail := demo_tail) tB "G" vB (1 # 1000) false = inr EmptyResult <->
   (forall c p, In c vB -> raw_pvalue (tail := demo_tail) tB "G" false c = Some p ->
      ~ p * inject_Z (Z.of_nat (n_tested (tail := demo_tail) tB "G" false vB)) <= 1 # 1000)) /\
  (forall rows, run_batch_ttest (tail := demo_tail) tB "G" vB (1 # 1000) false
                = inr (ResultTable rows) -> rows <> []).
Proof.
  apply (run_batch_ttest_empty_result (tail := demo_tail) tB "G" vB (1 # 1000) false
           labB "Mutated" "Wildtype"); try reflexivity.
  - discriminate.
  - exact vB_present.
Defined.

Lemma run_batch_ttest_invalid_grouping_witness :
  run_batch_ttest (tail := demo_tail) t3 "G" ["X"] default_alpha false
    = inl (InvalidGroupingError ["a"; "b"; "c"]).
Proof.
  apply (run_batch_ttest_invalid_grouping (tail := demo_tail) t3 "G" ["X"] default_alpha false
           [Some "a"; Some "b"; Some "c"]); vm_compute; [reflexivity|discriminate].
Defined.

(** C6 as stated fails: with three labels, an absent value column is not
    what the call reports. *)
Lemma column_not_found_counterexample :
  lookup "Y" (tbl_values t3) = None /\
  run_batch_ttest (tail := demo_tail) t3 "G" ["Y"] default_alpha false
    = inl (InvalidGroupingError ["a"; "b"; "c"]) /\
  forall n, run_batch_ttest (tail := demo_tail) t3 "G" ["Y"] default_alpha false
            <> inl (ColumnNotFoundError n).
Proof.
  split; [reflexivity|]. split; [vm_compute; reflexivity|].
  intros n; vm_compute; discriminate.
Defined.

Lemma run_batch_ttest_column_not_found_witness :
  run_batch_ttest (tail := demo_tail) tB "H" vB default_alpha false
    = inl (ColumnNotFoundError "H") /\
  run_batch_ttest (tail := demo_tail) t3 "G" ["Y"] default_alpha false
    = inl (InvalidGroupingError ["a"; "b"; "c"]) /\
  run_batch_ttest (tail := demo_tail) tB "G" (["X"] ++ "Q" :: ["R"]) default_alpha false
    = inl (ColumnNotFoundError "Q").
Proof.
  destruct (run_batch_ttest_column_not_found (tail := demo_tail) tB "G" default_alpha false)
    as (_ & _ & H3).
  destruct (run_batch_ttest_column_not_found (tail := demo_tail) tB "H" default_alpha false)
    as (H1 & _ & _).
  destruct (run_batch_ttest_column_not_found (tail := demo_tail) t3 "G" default_alpha false)
    as (_ & H2 & _).
  split; [|split].
  - apply H1; reflexivity.
  - apply (H2 [Some "a"; Some "b"; Some "c"]); vm_compute; [reflexivity|discriminate].
  - apply (H3 labB "Mutated" "Wildtype"); try reflexivity.
    intros c [<-|[]]; discriminate.
Defined.

Lemma run_batch_ttest_alpha_monotone_witness :
  (1 # 1000) <= default_alpha /\
  run_batch_ttest (tail := demo_tail) tB "G" vB (1 # 1000) false = inr EmptyResult /\
  exists o2, run_batch_ttest (tail := demo_tail) tB "G" vB default_alpha false = inr o2 /\
    incl (map fst (rows_of EmptyResult)) (map fst (rows_of o2)).
Proof.
  split; [vm_compute; discriminate|]. split; [vm_compute; reflexivity|].
  apply run_batch_ttest_alpha_monotone with (alpha1 := 1 # 1000);
    [vm_compute; discriminate|vm_compute; reflexivity].
Defined.


Definition df0 : frame :=
  [("S1", [("ARID1A_Mutation_Status", Str "Wildtype_Tumor"); ("DPF2_proteomics", Num 1)]);
   ("S2", [("ARID1A_Mutation_Status", Str "Single_mutation")]);
   ("S3", [("ARID1A_Mutation_Status", Missing)])].

Lemma binarize_two_labels_witness :
  exists df', binarize "ARID1A" "Gene Mutation Status" df0 = Some df' /\
  Forall2 (fun ir ir' =>
             fst ir' = fst ir /\
             exists v, row_get (snd ir) (String.append "ARID1A" "_Mutation_Status") = Some v /\
               row_get (snd ir') "Gene Mutation Status"
                 = Some (Str (if cell_ne_str v "Wildtype_Tumor" then "Mutated" else "Wildtype")))
          df0 df' /\
  (forall ir', In ir' df' ->
     row_get (snd ir') "Gene Mutation Status" = Some (Str "Mutated") \/
     row_get (snd ir') "Gene Mutation Status" = Some (Str "Wildtype")) /\
  (List.length (uniq (drop_missing (group_labels "Gene Mutation Status" df'))) <= 2)%nat.
Proof.
  eexists; split; [vm_compute; reflexivity|].
  apply binarize_two_labels; [|vm_compute; reflexivity].
  repeat constructor; simpl; intros H; repeat destruct H as [H|H]; try discriminate; exact H.
Defined.

(** A joined frame as [join_omics_to_mutations] returns it: two tumor
    samples and one normal sample. *)
Definition mkrow (mut loc st ss : cell) (q : Q) : row :=
  [("ARID1A_Mutation", mut); ("ARID1A_Location", loc); ("ARID1A_Mutation_Status", st);
   ("Sample_Status", ss); ("DPF2_proteomics", Num q)].

Definition dfJ : frame :=
  [("S1", mkrow Missing Missing (Str "Wildtype_Tumor") (Str "Tumor") 1);
   ("S2", mkrow (Str "Missense_Mutation") (Str "p.Q372*") (Str "Single_mutation") (Str "Tumor") 2);
   ("S3", mkrow Missing Missing (Str "Wildtype_Normal") (Str "Normal") 3)].

Lemma dfJ_NoDup : NoDup (map fst dfJ).
Proof.
  repeat constructor; simpl; intros H; repeat destruct H as [H|H]; try discriminate; exact H.
Qed.

Lemma binarize_frame_effect_witness :
  exists df', binarize "ARID1A" "Gene Mutation Status" dfJ = Some df' /\
  map fst df' = map fst dfJ /\
  Forall2 (fun ir ir' => forall k, k <> "Gene Mutation Status" ->
                           row_get (snd ir') k = row_get (snd ir) k) dfJ df'.
Proof.
  eexists; split; [vm_compute; reflexivity|].
  apply (binarize_frame_effect "ARID1A" "Gene Mutation Status" dfJ); [exact dfJ_NoDup|vm_compute; reflexivity].
Defined.

Lemma prepare_spec_witness :
  exists df' cols, prepare "ARID1A" "Gene Mutation Status" dfJ = Some (df', cols) /\
  (forall ir', In ir' df' ->
     exists r v, In (fst ir', r) dfJ /\
       row_get r "Sample_Status" = Some (Str "Tumor") /\
       row_get r (String.append "ARID1A" "_Mutation_Status") = Some v /\
       row_get (snd ir') "Gene Mutation Status" = Some (Str (status_label v))) /\
  NoDup (map fst df') /\ NoDup cols /\ ~ In "Gene Mutation Status" cols /\
  (forall d, In d [String.append "ARID1A" "_Mutation"; String.append "ARID1A" "_Location";
                   String.append "ARID1A" "_Mutation_Status"; "Sample_Status"] -> ~ In d cols).
Proof.
  do 2 eexists; split; [vm_compute; reflexivity|].
  apply (prepare_spec "ARID1A" "Gene Mutation Status" dfJ); [exact dfJ_NoDup| |vm_compute; reflexivity].
  simpl; intros H; repeat destruct H as [H|H]; try discriminate; exact H.
Defined.





End Witnesses.
